(** * Brute-force TSP solver ([python_tsp/brute_force.py])

    A shallow embedding of [solve_tsp_brute_force] and its helper
    [_permutation_distance], together with the parts of numpy and
    itertools they consume, and the properties of the solver.

    Modelling choices.
    - Matrix entries are values of [num]: an exact finite value, the two
      infinities, or NaN, with the IEEE rules for addition and for [<]
      on the special values.  Rounding and overflow of finite values are
      not modelled: finite values add exactly.  The general properties
      are therefore stated about the sums the code computes and compares
      ("the distance of a candidate"), and their proofs use no law of
      addition other than 0 being neutral: they do not depend on how
      two finite values add.
    - An [ndarray] is a Python object: callers hold a reference ([loc])
      into a store ([heap]); [copy] allocates a new object and item
      assignment updates the object a reference points to.
    - Exceptions are values of [exn]; a computation is a function from
      the store to a new store and either a value or a raised exception. *)

From Stdlib Require Import ZArith List Lia.
From stdpp Require Import base list sorting.
Import ListNotations.

(** ** Numbers *)

Inductive num : Type :=
  | Fin (z : Z)
  | PInf
  | NInf
  | NaN.

Definition num_add (x y : num) : num :=
  match x, y with
  | NaN, _ | _, NaN => NaN
  | PInf, NInf | NInf, PInf => NaN
  | PInf, _ | _, PInf => PInf
  | NInf, _ | _, NInf => NInf
  | Fin a, Fin b => Fin (a + b)
  end.

(** [x < y]; every comparison with NaN is false. *)
Definition num_ltb (x y : num) : bool :=
  match x, y with
  | NaN, _ | _, NaN => false
  | _, NInf => false
  | NInf, _ => true
  | PInf, _ => false
  | Fin _, PInf => true
  | Fin a, Fin b => (a <? b)%Z
  end.

(** [x <= y]; every comparison with NaN is false. *)
Definition num_leb (x y : num) : bool :=
  match x, y with
  | NaN, _ | _, NaN => false
  | NInf, _ => true
  | _, PInf => true
  | _, NInf => false
  | PInf, _ => false
  | Fin a, Fin b => (a <=? b)%Z
  end.

Definition is_finite (x : num) : bool :=
  match x with Fin _ => true | _ => false end.

(** [ndarray.sum()] of a one-dimensional array; the empty sum is 0. *)
Definition sum (xs : list num) : num := fold_left num_add xs (Fin 0).

(** ** Arrays *)

(** A two-dimensional array of shape [(length rows, ncols)], row-major. *)
Record ndarray : Type := NDArray { ncols : nat; rows : list (list num) }.

(** [a.shape] *)
Definition shape (a : ndarray) : nat * nat := (length (rows a), ncols a).

(** Every row has [ncols] entries. *)
Definition wf (a : ndarray) : Prop :=
  Forall (fun row => length row = ncols a) (rows a).

(** An n-by-n array. *)
Definition square (n : nat) (a : ndarray) : Prop :=
  length (rows a) = n /\ ncols a = n /\ wf a.

(** The entry at row [i], column [j] (0 outside the buffer, which the
    bounds checks of the indexing operations exclude). *)
Definition item (a : ndarray) (i j : nat) : num :=
  default (Fin 0) (row ← rows a !! i; row !! j).

(** ** Exceptions and results *)

Inductive exn : Type :=
  | IndexError (index axis size : nat)
      (* index [index] is out of bounds for axis [axis] with size [size] *)
  | TypeError
      (* 'NoneType' object is not iterable *)
  | Unbound.
      (* a reference that names no array of the store *)

Inductive result (A : Type) : Type :=
  | Ok (a : A)
  | Raise (e : exn).
Arguments Ok {A} a.
Arguments Raise {A} e.

(** Bounds check of one index array against one axis: the first index
    out of range is reported. *)
Definition check_indices (axis size : nat) (ind : list nat) : result unit :=
  match List.find (fun i => negb (i <? size)) ind with
  | Some i => Raise (IndexError i axis size)
  | None => Ok tt
  end.

(** [a[ind1, ind2]] for two index sequences of the same length: the
    one-dimensional array of the entries [a[ind1[k], ind2[k]]]. *)
Definition getitem_fancy (a : ndarray) (ind1 ind2 : list nat)
  : result (list num) :=
  match check_indices 0 (length (rows a)) ind1 with
  | Raise e => Raise e
  | Ok _ =>
    match check_indices 1 (ncols a) ind2 with
    | Raise e => Raise e
    | Ok _ => Ok (zip_with (item a) ind1 ind2)
    end
  end.

(** ** The store and the computation monad *)

(** References are positions in the store; allocation appends. *)
Abbreviation loc := nat (only parsing).
Abbreviation heap := (list ndarray) (only parsing).

Definition M (A : Type) : Type := heap -> heap * result A.

Definition ret {A} (a : A) : M A := fun h => (h, Ok a).

Definition raise {A} (e : exn) : M A := fun h => (h, Raise e).

Definition bind {A B} (m : M A) (k : A -> M B) : M B :=
  fun h =>
    match m h with
    | (h', Ok a) => k a h'
    | (h', Raise e) => (h', Raise e)
    end.

Definition lift {A} (r : result A) : M A := fun h => (h, r).

Declare Scope tsp_scope.
Delimit Scope tsp_scope with tsp.
Notation "x <- m ;; k" := (bind m (fun x => k))
  (at level 100, m at next level, right associativity) : tsp_scope.
Local Open Scope tsp_scope.

(** The array a reference points to. *)
Definition get_array (r : loc) : M ndarray :=
  fun h =>
    match h !! r with
    | Some a => (h, Ok a)
    | None => (h, Raise Unbound)
    end.

(** [a.copy()]: a new object with the same contents. *)
Definition copy (r : loc) : M loc :=
  a <- get_array r;;
  fun h => (h ++ [a], Ok (length h)).

(** [a[:, j] = v]: in-place assignment to column [j]. *)
Definition setitem_column (r : loc) (j : nat) (v : num) : M unit :=
  a <- get_array r;;
  if decide (j < ncols a) then
    fun h =>
      (<[r := NDArray (ncols a) (map (fun row => <[j := v]> row) (rows a))]> h,
       Ok tt)
  else raise (IndexError j 1 (ncols a)).

(** ** itertools.permutations *)

(** Every way to take one element out of a list, by position. *)
Fixpoint picks {A} (l : list A) : list (A * list A) :=
  match l with
  | [] => []
  | x :: xs => (x, xs) :: map (fun '(y, ys) => (y, x :: ys)) (picks xs)
  end.

Fixpoint permutations_of_length {A} (k : nat) (l : list A) : list (list A) :=
  match k with
  | 0 => [[]]
  | S k' =>
    flat_map (fun '(x, rest) => map (cons x) (permutations_of_length k' rest))
             (picks l)
  end.

(** [permutations(l)]: all orderings of [l], emitted in lexicographic
    order of the positions of [l]. *)
Definition permutations {A} (l : list A) : list (list A) :=
  permutations_of_length (length l) l.

(** ** The solver *)

(** [_permutation_distance(permutation, distance_matrix)] *)
Definition _permutation_distance (permutation : list nat)
    (distance_matrix : loc) : M num :=
  let ind1 := [0] ++ permutation in
  let ind2 := permutation ++ [0] in
  a <- get_array distance_matrix;;
  xs <- lift (getitem_fancy a ind1 ind2);;
  ret (sum xs).

(** The state of the search loop: [(best_distance, best_solution)]. *)
Definition best : Type := num * option (list nat).

(** The body of the [for permutation in permutations(points)] loop, run
    over the remaining candidates. *)
Fixpoint search (candidates : list (list nat)) (distance_matrix : loc)
    (b : best) : M best :=
  match candidates with
  | [] => ret b
  | permutation :: rest =>
    distance <- _permutation_distance permutation distance_matrix;;
    search rest distance_matrix
      (if num_ltb distance (fst b) then (distance, Some permutation) else b)
  end.

Definition solve_tsp_brute_force (distance_matrix : loc) (open_tsp : bool)
  : M (list nat * num) :=
  a <- get_array distance_matrix;;
  let points := seq 1 (fst (shape a) - 1) in
  distance_matrix <-
    (if open_tsp then
       c <- copy distance_matrix;;
       _ <- setitem_column c 0 (Fin 0);;
       ret c
     else ret distance_matrix);;
  b <- search (permutations points) distance_matrix (PInf, None);;
  let '(best_distance, best_solution) := b in
  match best_solution with
  | None => raise TypeError
  | Some p =>
    ret ([0] ++ p ++ (if open_tsp then [] else [0]), best_distance)
  end.

(** ** Notions used to state the properties *)

(** The sum of the entries [(prev, next)] over the pairs of
    [[0] + p] against [p + [0]]. *)
Definition paired_sum (a : ndarray) (p : list nat) : num :=
  sum (zip_with (item a) ([0] ++ p) (p ++ [0])).

(** One iteration of the loop on a candidate whose distance is known. *)
Definition step (a : ndarray) (b : best) (p : list nat) : best :=
  if num_ltb (paired_sum a p) (fst b) then (paired_sum a p, Some p) else b.

(** The value of [_permutation_distance(p, a)]. *)
Definition tour_distance (a : ndarray) (p : list nat) : result num :=
  snd (_permutation_distance p 0 [a]).

(** The matrix the search runs on: the caller's matrix for a closed
    tour, its copy with column 0 set to zero for an open one. *)
Definition working (a : ndarray) (open_tsp : bool) : ndarray :=
  if open_tsp
  then NDArray (ncols a) (map (fun row => <[0 := Fin 0]> row) (rows a))
  else a.

(** The candidate inside a returned tour: the tour without its leading
    0 and, for a closed tour, without its trailing 0. *)
Definition tour_permutation (open_tsp : bool) (tour : list nat) : list nat :=
  if open_tsp then tail tour else removelast (tail tour).

Definition in_range (n : nat) (p : list nat) : Prop :=
  Forall (fun i => i < n) p.

(** What the last lines of the solver make of the final loop state. *)
Definition best_result (open_tsp : bool) (b : best) : result (list nat * num) :=
  match snd b with
  | None => Raise TypeError
  | Some p => Ok ([0] ++ p ++ (if open_tsp then [] else [0]), fst b)
  end.

(** What the loop maintains after the candidates [visited]: the best
    distance is a number, no visited candidate is strictly below it,
    and the best solution, once set, is the first visited candidate
    that attains it. *)
Definition search_inv (a : ndarray) (visited : list (list nat)) (b : best)
  : Prop :=
  fst b <> NaN /\
  (forall q, q ∈ visited -> num_ltb (paired_sum a q) (fst b) = false) /\
  match snd b with
  | None => fst b = PInf
  | Some p =>
    fst b = paired_sum a p /\ num_ltb (fst b) PInf = true /\
    exists before after,
      visited = before ++ p :: after /\
      forall q, q ∈ before -> num_leb (paired_sum a q) (fst b) = false
  end.

(** Lexicographic order on sequences of nodes. *)
Inductive lex_lt : list nat -> list nat -> Prop :=
  | lex_lt_nil y ys : lex_lt [] (y :: ys)
  | lex_lt_head x y xs ys : x < y -> lex_lt (x :: xs) (y :: ys)
  | lex_lt_tail x xs ys : lex_lt xs ys -> lex_lt (x :: xs) (x :: ys).

(** The error a result carries, if any. *)
Definition error_of {A} (r : result A) : option exn :=
  match r with
  | Ok _ => None
  | Raise e => Some e
  end.

Definition empty_matrix : ndarray := NDArray 0 [].

#[global] Instance square_dec n a : Decision (square n a).
Proof. unfold square, wf. apply _. Defined.

(** ** Sample matrices *)

Definition triangle : ndarray :=
  NDArray 3 [[Fin 0; Fin 1; Fin 2]; [Fin 1; Fin 0; Fin 3]; [Fin 2; Fin 3; Fin 0]].

Definition skewed : ndarray := NDArray 2 [[Fin 0; Fin 1]; [Fin (-5); Fin 0]].

Definition unreachable : ndarray :=
  NDArray 2 [[Fin 0; PInf]; [PInf; Fin 0]].


(** Three rows of two entries. *)
Definition tall : ndarray :=
  NDArray 2 [[Fin 0; Fin 1]; [Fin 1; Fin 0]; [Fin 2; Fin 3]].

(** Two rows of three entries. *)
Definition wide : ndarray :=
  NDArray 3 [[Fin 0; Fin 1; Fin 7]; [Fin 4; Fin 0; Fin 8]].

(** A matrix with a NaN entry on the way 0 -> 1. *)
Definition patchy : ndarray :=
  NDArray 3 [[Fin 0; NaN; Fin 2]; [Fin 1; Fin 0; Fin 3]; [Fin 2; Fin 3; Fin 0]].

(** * Lemmas *)

Example permutations_3 :
  permutations [1; 2; 3] =
  [[1; 2; 3]; [1; 3; 2]; [2; 1; 3]; [2; 3; 1]; [3; 1; 2]; [3; 2; 1]].
Proof. reflexivity. Qed.

(** ** Facts about numbers *)

Module Num.

Lemma ltb_irrefl x : num_ltb x x = false.
Proof. destruct x; simpl; auto. apply Z.ltb_irrefl. Qed.

Lemma ltb_trans x y z :
  num_ltb x y = true -> num_ltb y z = true -> num_ltb x z = true.
Proof.
  destruct x, y, z; simpl; try congruence.
  rewrite !Z.ltb_lt. lia.
Qed.

Lemma leb_ltb_trans x y z :
  num_leb x y = true -> num_ltb y z = true -> num_ltb x z = true.
Proof.
  destruct x, y, z; simpl; try congruence.
  rewrite Z.leb_le, !Z.ltb_lt. lia.
Qed.

Lemma leb_trans x y z :
  num_leb x y = true -> num_leb y z = true -> num_leb x z = true.
Proof.
  destruct x, y, z; simpl; try congruence.
  rewrite !Z.leb_le. lia.
Qed.

Lemma ltb_not_nan_l x y : num_ltb x y = true -> x <> NaN.
Proof. destruct x; simpl; congruence. Qed.

Lemma ltb_below_inf x y : num_ltb x y = true -> num_ltb x PInf = true.
Proof. destruct x, y; simpl; congruence. Qed.

(** On values that are not NaN the order is total. *)
Lemma not_ltb_leb x y :
  x <> NaN -> y <> NaN -> num_ltb x y = false -> num_leb y x = true.
Proof.
  destruct x, y; simpl; try congruence.
  rewrite Z.ltb_ge, Z.leb_le. lia.
Qed.

Lemma leb_not_nan_l x y : num_leb x y = true -> x <> NaN.
Proof. destruct x; simpl; congruence. Qed.

Lemma ltb_leb x y : num_ltb x y = true -> num_leb x y = true.
Proof.
  destruct x, y; simpl; try congruence.
  rewrite Z.ltb_lt, Z.leb_le. lia.
Qed.

Lemma leb_not_ltb x y : num_leb x y = false -> num_ltb x y = false.
Proof.
  destruct (num_ltb x y) eqn:E; auto.
  apply ltb_leb in E. congruence.
Qed.

Lemma finite_inv x : is_finite x = true -> exists z, x = Fin z.
Proof. destruct x; simpl; try congruence. eauto. Qed.

End Num.

(** ** Facts about the enumeration of permutations *)

Section Permutations.
Context {A : Type}.
Implicit Types (l rest : list A) (x : A).

Lemma picks_perm l x rest : (x, rest) ∈ picks l -> l ≡ₚ x :: rest.
Proof.
  revert x rest. induction l as [|y l IH]; intros x rest; simpl.
  - intros H. inversion H.
  - rewrite elem_of_cons, list_elem_of_fmap. intros [H | [[z zs] [H Hin]]].
    + inversion H; subst. reflexivity.
    + inversion H; subst. rewrite (IH _ _ Hin). apply perm_swap.
Qed.

Lemma picks_elem l x : x ∈ l -> exists rest, (x, rest) ∈ picks l.
Proof.
  induction l as [|y l IH]; intros H.
  - inversion H.
  - apply elem_of_cons in H as [-> | H]; simpl.
    + eexists. apply list_elem_of_here.
    + destruct (IH H) as [rest Hr]. exists (y :: rest).
      apply list_elem_of_further, list_elem_of_fmap. exists (x, rest). auto.
Qed.

Lemma elem_of_permutations_of_length k l q :
  length l = k -> (q ∈ permutations_of_length k l <-> l ≡ₚ q).
Proof.
  revert l q. induction k as [|k IH]; intros l q Hlen; simpl.
  - destruct l; [|discriminate]. rewrite list_elem_of_singleton. split.
    + intros ->. reflexivity.
    + intros H. apply Permutation_nil. exact H.
  - rewrite list_elem_of_In, in_flat_map. split.
    + intros [[x rest] [Hp Hq]]. apply list_elem_of_In in Hp, Hq.
      apply list_elem_of_fmap in Hq as [q' [-> Hq']].
      pose proof (picks_perm _ _ _ Hp) as Hl.
      apply IH in Hq'.
      * rewrite Hl, Hq'. reflexivity.
      * apply Permutation_length in Hl. simpl in Hl. lia.
    + intros Hl. destruct q as [|x q'].
      { apply Permutation_length in Hl. simpl in Hl. lia. }
      assert (Hx : x ∈ l) by (rewrite Hl; apply list_elem_of_here).
      destruct (picks_elem _ _ Hx) as [rest Hr].
      exists (x, rest). rewrite <- !list_elem_of_In. split; [exact Hr|].
      apply list_elem_of_fmap. exists q'. split; [reflexivity|].
      pose proof (picks_perm _ _ _ Hr) as Hl'.
      apply IH.
      * apply Permutation_length in Hl'. simpl in Hl'. lia.
      * apply (Permutation_cons_inv (a := x)). rewrite <- Hl'. exact Hl.
Qed.

(** The enumeration yields exactly the orderings of its argument. *)
Lemma elem_of_permutations l q : q ∈ permutations l <-> l ≡ₚ q.
Proof. apply elem_of_permutations_of_length. reflexivity. Qed.

Lemma permutations_self l : l ∈ permutations l.
Proof. apply elem_of_permutations. reflexivity. Qed.

End Permutations.

(** ** The search loop as a fold *)

Lemma check_indices_ok axis size ind :
  in_range size ind -> check_indices axis size ind = Ok tt.
Proof.
  intros H. unfold check_indices.
  destruct (find _ ind) as [i|] eqn:E; [|reflexivity].
  apply find_some in E as [Hin Hb].
  unfold in_range in H. rewrite List.Forall_forall in H. specialize (H _ Hin).
  apply negb_true_iff, Nat.ltb_ge in Hb. lia.
Qed.

Lemma in_range_points n q : q ≡ₚ seq 1 (n - 1) -> in_range n q.
Proof.
  intros H. unfold in_range. rewrite H.
  apply Forall_seq. intros j Hj. lia.
Qed.

Lemma permutation_distance_run h r a p :
  h !! r = Some a ->
  0 < length (rows a) -> 0 < ncols a ->
  in_range (length (rows a)) p -> in_range (ncols a) p ->
  _permutation_distance p r h = (h, Ok (paired_sum a p)).
Proof.
  intros Hr Hn Hc H1 H2.
  unfold _permutation_distance, bind, get_array, lift, ret, getitem_fancy.
  rewrite Hr.
  rewrite check_indices_ok by (constructor; [lia | exact H1]).
  rewrite check_indices_ok
    by (apply Forall_app; split; [exact H2 | constructor; [lia | constructor]]).
  reflexivity.
Qed.

Lemma tour_distance_paired_sum n a p :
  1 <= n -> length (rows a) = n -> ncols a = n -> in_range n p ->
  tour_distance a p = Ok (paired_sum a p).
Proof.
  intros Hn Hr Hc Hp. unfold tour_distance.
  rewrite (permutation_distance_run [a] 0 a p); auto; try lia;
    rewrite ?Hr, ?Hc; auto.
Qed.

Lemma permutation_distance_heap p r h : fst (_permutation_distance p r h) = h.
Proof.
  unfold _permutation_distance, bind, get_array, lift, ret.
  destruct (h !! r); [|reflexivity].
  destruct (getitem_fancy _ _ _); reflexivity.
Qed.

Lemma search_heap candidates r b h : fst (search candidates r b h) = h.
Proof.
  revert b. induction candidates as [|p rest IH]; intros b; simpl.
  - reflexivity.
  - unfold bind. pose proof (permutation_distance_heap p r h) as Hp.
    destruct (_permutation_distance p r h) as [h' [d|e]]; simpl in Hp; subst h'.
    + apply IH.
    + reflexivity.
Qed.

Lemma search_run h r a candidates b :
  h !! r = Some a ->
  0 < length (rows a) -> 0 < ncols a ->
  Forall (fun p => in_range (length (rows a)) p /\ in_range (ncols a) p)
         candidates ->
  search candidates r b h = (h, Ok (fold_left (step a) candidates b)).
Proof.
  intros Hr Hn Hc. revert b.
  induction candidates as [|p rest IH]; intros b Hall; simpl.
  - reflexivity.
  - inversion Hall as [|? ? [H1 H2] Hrest]; subst.
    unfold bind. rewrite (permutation_distance_run h r a p) by assumption.
    rewrite IH by assumption. reflexivity.
Qed.

Section SearchInvariant.
Variable a : ndarray.

Lemma search_inv_init : search_inv a [] (PInf, None).
Proof.
  repeat split; simpl; try congruence. intros q H. inversion H.
Qed.

Lemma search_inv_step visited b p :
  search_inv a visited b -> search_inv a (visited ++ [p]) (step a b p).
Proof.
  intros (Hnan & Hmin & Hbest). unfold step.
  destruct (num_ltb (paired_sum a p) (fst b)) eqn:Hlt.
  - (* the candidate replaces the best *)
    split; [|split]; simpl.
    + eapply Num.ltb_not_nan_l; eauto.
    + intros q Hq. apply elem_of_app in Hq as [Hq | Hq].
      * destruct (num_ltb (paired_sum a q) (paired_sum a p)) eqn:E; auto.
        rewrite <- (Hmin q Hq). symmetry. eapply Num.ltb_trans; eauto.
      * apply list_elem_of_singleton in Hq as ->. apply Num.ltb_irrefl.
    + split; [reflexivity|]. split; [eapply Num.ltb_below_inf; eauto|].
      exists visited, []. split; [reflexivity|].
      intros q Hq.
      destruct (num_leb (paired_sum a q) (paired_sum a p)) eqn:E; auto.
      rewrite <- (Hmin q Hq). symmetry. eapply Num.leb_ltb_trans; eauto.
  - (* the best is kept *)
    split; [exact Hnan|]. split.
    + intros q Hq. apply elem_of_app in Hq as [Hq | Hq]; auto.
      apply list_elem_of_singleton in Hq as ->. exact Hlt.
    + destruct (snd b) as [p0|]; [|exact Hbest].
      destruct Hbest as (Hd & Hinf & before & after & -> & Hfirst).
      repeat split; auto.
      exists before, (after ++ [p]). split; [|exact Hfirst].
      rewrite <- app_assoc. reflexivity.
Qed.

Lemma search_inv_fold candidates visited b :
  search_inv a visited b ->
  search_inv a (visited ++ candidates) (fold_left (step a) candidates b).
Proof.
  revert visited b.
  induction candidates as [|p rest IH]; intros visited b H; simpl.
  - rewrite app_nil_r. exact H.
  - replace (visited ++ p :: rest) with ((visited ++ [p]) ++ rest)
      by (rewrite <- app_assoc; reflexivity).
    apply IH, search_inv_step, H.
Qed.

Lemma search_inv_run candidates :
  search_inv a candidates (fold_left (step a) candidates (PInf, None)).
Proof. apply (search_inv_fold candidates []), search_inv_init. Qed.

(** A candidate below infinity makes the loop keep a solution. *)
Lemma search_finds candidates q :
  q ∈ candidates -> num_ltb (paired_sum a q) PInf = true ->
  exists p, snd (fold_left (step a) candidates (PInf, None)) = Some p.
Proof.
  intros Hq Hlt.
  destruct (search_inv_run candidates) as (_ & Hmin & Hbest).
  destruct (snd _) as [p|]; [eauto|].
  rewrite Hbest in Hmin. rewrite (Hmin q Hq) in Hlt. discriminate.
Qed.

End SearchInvariant.

(** ** The solver on a square matrix *)

Lemma working_shape a open_tsp :
  length (rows (working a open_tsp)) = length (rows a) /\
  ncols (working a open_tsp) = ncols a.
Proof. destruct open_tsp; simpl; rewrite ?length_map; auto. Qed.

Lemma candidates_in_range n :
  Forall (fun p => in_range n p /\ in_range n p) (permutations (seq 1 (n - 1))).
Proof.
  apply List.Forall_forall. intros q Hq.
  apply list_elem_of_In, elem_of_permutations in Hq.
  split; apply in_range_points; symmetry; exact Hq.
Qed.

Lemma solve_run n a h r open_tsp :
  1 <= n -> length (rows a) = n -> ncols a = n -> h !! r = Some a ->
  solve_tsp_brute_force r open_tsp h =
  ((if open_tsp then h ++ [working a true] else h),
   best_result open_tsp
     (fold_left (step (working a open_tsp)) (permutations (seq 1 (n - 1)))
                (PInf, None))).
Proof.
  intros Hn Hrows Hcols Hr.
  cbv beta delta [solve_tsp_brute_force bind get_array copy setitem_column ret raise].
  rewrite Hr. cbv beta iota zeta. cbn [shape fst]. rewrite Hrows.
  destruct open_tsp.
  - rewrite Hr. cbv beta iota zeta.
    rewrite list_lookup_middle by reflexivity. cbv beta iota zeta.
    destruct (decide (0 < ncols a)) as [_|Hbad]; [|lia].
    replace (<[length h := _]> (h ++ [a])) with (h ++ [working a true]).
    2:{ rewrite insert_app_r_alt by lia. rewrite Nat.sub_diag. reflexivity. }
    rewrite (search_run (h ++ [working a true]) (length h) (working a true)).
    + destruct (fold_left _ _ _) as [bd [p|]]; reflexivity.
    + apply list_lookup_middle. reflexivity.
    + simpl. rewrite length_map. lia.
    + simpl. lia.
    + simpl. rewrite length_map, Hrows, Hcols. apply candidates_in_range.
  - rewrite (search_run h r a); try lia; auto.
    + destruct (fold_left _ _ _) as [bd [p|]]; reflexivity.
    + rewrite Hrows, Hcols. apply candidates_in_range.
Qed.

(** The store after a call, whatever the input and the outcome: the
    objects that existed before are as they were, and at most one object
    (the working copy of an open problem) has been added. *)
Lemma solve_heap h r open_tsp :
  exists extra,
    fst (solve_tsp_brute_force r open_tsp h) = h ++ extra /\
    (open_tsp = false -> extra = []).
Proof.
  cbv beta delta [solve_tsp_brute_force bind get_array copy setitem_column ret raise].
  destruct (h !! r) as [a|] eqn:Hr; cbv beta iota zeta.
  2:{ exists []. rewrite app_nil_r. auto. }
  destruct open_tsp.
  - rewrite Hr. cbv beta iota zeta.
    rewrite list_lookup_middle by reflexivity. cbv beta iota zeta.
    destruct (decide (0 < ncols a)) as [_|_]; cbv beta iota zeta.
    + rewrite insert_app_r_alt by lia. rewrite Nat.sub_diag. simpl insert.
      match goal with |- context [search ?c ?l ?b ?h0] =>
        pose proof (search_heap c l b h0) as Hs;
        destruct (search c l b h0) as [h2 [[bd [p|]]|e]]; simpl in Hs; subst h2
      end; eexists; (split; [reflexivity | discriminate]).
    + eexists. split; [reflexivity | discriminate].
  - match goal with |- context [search ?c ?l ?b ?h0] =>
      pose proof (search_heap c l b h0) as Hs;
      destruct (search c l b h0) as [h2 [[bd [p|]]|e]]; simpl in Hs; subst h2
    end; exists []; rewrite app_nil_r; auto.
Qed.

Lemma tour_distance_working n a open_tsp q :
  1 <= n -> square n a -> q ≡ₚ seq 1 (n - 1) ->
  tour_distance (working a open_tsp) q =
  Ok (paired_sum (working a open_tsp) q).
Proof.
  intros Hn (Hrows & Hcols & _) Hq.
  destruct (working_shape a open_tsp) as [Hr Hc].
  apply (tour_distance_paired_sum n); auto; try congruence.
  apply in_range_points, Hq.
Qed.

Lemma tour_permutation_tour open_tsp p :
  tour_permutation open_tsp ([0] ++ p ++ (if open_tsp then [] else [0])) = p.
Proof.
  unfold tour_permutation. destruct open_tsp; simpl.
  - apply app_nil_r.
  - apply removelast_last.
Qed.

(** * Properties of the solver *)

(** C3. On the matrix [[0,1,2],[1,0,3],[2,3,0]] the closed problem
    returns the tour [0,1,2,0] with distance 6, the first in enumeration
    order of the two orders [1,2] and [2,1], which both have distance 6;
    the open problem returns the tour [0,1,2] with distance 4. *)
Theorem triangle_scenario :
  snd (solve_tsp_brute_force 0 false [triangle]) = Ok ([0; 1; 2; 0], Fin 6) /\
  permutations (seq 1 (length (rows triangle) - 1)) = [[1; 2]; [2; 1]] /\
  tour_distance triangle [1; 2] = Ok (Fin 6) /\
  tour_distance triangle [2; 1] = Ok (Fin 6) /\
  snd (solve_tsp_brute_force 0 true [triangle]) = Ok ([0; 1; 2], Fin 4).
Proof. repeat split. Qed.

(** C8. Whatever the store, the matrix passed and the flag, every object
    that existed before the call (the caller's matrix among them) is
    unchanged after it, whether the call returned or raised: a closed
    problem leaves the store as it was, and an open problem only adds
    objects (its working copy) to it. *)
Theorem input_matrix_not_mutated (h : list ndarray) (r : nat) (open_tsp : bool) :
  (forall l, l < length h ->
     fst (solve_tsp_brute_force r open_tsp h) !! l = h !! l) /\
  (open_tsp = false -> fst (solve_tsp_brute_force r open_tsp h) = h) /\
  (open_tsp = true ->
     exists copies, fst (solve_tsp_brute_force r open_tsp h) = h ++ copies).
Proof.
  destruct (solve_heap h r open_tsp) as (extra & Heq & Hclosed).
  rewrite Heq. split; [|split].
  - intros l Hl. apply lookup_app_l. exact Hl.
  - intros Ho. rewrite (Hclosed Ho). apply app_nil_r.
  - intros _. exists extra. reflexivity.
Qed.

(** C10, as stated, fails for an open problem: the error of the call is
    not the one [_permutation_distance] raises on the empty candidate. *)
Lemma empty_matrix_open_error_not_from_distance :
  ~ (forall open_tsp,
       error_of (snd (solve_tsp_brute_force 0 open_tsp [empty_matrix])) =
       error_of (tour_distance (working empty_matrix open_tsp) [])).
Proof. intros H. specialize (H true). discriminate H. Qed.

(** C10, amended. On the empty (0-by-0) matrix the call raises an
    out-of-bounds [IndexError] for either value of the flag and returns
    no tour.  For a closed problem the one (empty) candidate is
    evaluated and the error is the one [_permutation_distance] raises on
    row 0; for an open problem the error is raised by the assignment to
    column 0 of the copy, before the search. *)
Theorem empty_matrix_raises :
  permutations (seq 1 (length (rows empty_matrix) - 1)) = [[]] /\
  tour_distance empty_matrix [] = Raise (IndexError 0 0 0) /\
  snd (solve_tsp_brute_force 0 false [empty_matrix]) =
    Raise (IndexError 0 0 0) /\
  snd (setitem_column 1 0 (Fin 0) [empty_matrix; empty_matrix]) =
    Raise (IndexError 0 1 0) /\
  snd (solve_tsp_brute_force 0 true [empty_matrix]) =
    Raise (IndexError 0 1 0).
Proof. repeat split. Qed.


(** C6. On the matrix [[0, inf], [inf, 0]] the only candidate has an
    infinite distance, which is not strictly below the initial best
    distance: [best_solution] stays [None] and the call raises
    [TypeError] instead of returning an infinite best distance.  The
    same happens when the only distance is NaN. *)
Theorem infinite_distances_raise :
  permutations (seq 1 (length (rows unreachable) - 1)) = [[1]] /\
  tour_distance unreachable [1] = Ok PInf /\
  snd (solve_tsp_brute_force 0 false [unreachable]) = Raise TypeError /\
  snd (solve_tsp_brute_force 0 true [unreachable]) = Raise TypeError /\
  snd (solve_tsp_brute_force 0 false [NDArray 1 [[NaN]]]) = Raise TypeError.
Proof. repeat split. Qed.

(** C7, as stated, fails for an open problem: on [[5]] the distance
    returned is 0, not the entry 5. *)
Lemma single_node_open_distance_is_zero :
  snd (solve_tsp_brute_force 0 true [NDArray 1 [[Fin 5]]]) = Ok ([0], Fin 0) /\
  snd (solve_tsp_brute_force 0 true [NDArray 1 [[Fin 5]]]) <>
    Ok ([0], item (NDArray 1 [[Fin 5]]) 0 0).
Proof. split; [reflexivity | discriminate]. Qed.

(** C7, amended. On a 1-by-1 matrix an open problem returns the tour
    [0] with distance 0 (the entry of the zeroed column), and a closed
    problem whose entry is finite returns the tour [0, 0] with that
    entry as distance. *)
Theorem single_node_tour a h r :
  square 1 a -> h !! r = Some a ->
  snd (solve_tsp_brute_force r true h) = Ok ([0], Fin 0) /\
  (is_finite (item a 0 0) = true ->
   snd (solve_tsp_brute_force r false h) = Ok ([0; 0], item a 0 0)).
Proof.
  intros (Hrows & Hcols & Hwf) Hr.
  rewrite !(solve_run 1 a h r _ (Nat.le_refl 1) Hrows Hcols Hr).
  destruct a as [c [|row [|? ?]]]; simpl in *; try discriminate.
  subst c. inversion Hwf as [|? ? Hlen _]; subst.
  destruct row as [|x [|? ?]]; simpl in *; try discriminate.
  split; [reflexivity|].
  intros Hx. apply Num.finite_inv in Hx as [z Hz].
  unfold item in Hz |- *. simpl in Hz |- *. subst x. reflexivity.
Qed.

Lemma single_node_tour_witness :
  snd (solve_tsp_brute_force 0 true [NDArray 1 [[Fin 5]]]) = Ok ([0], Fin 0) /\
  (is_finite (item (NDArray 1 [[Fin 5]]) 0 0) = true ->
   snd (solve_tsp_brute_force 0 false [NDArray 1 [[Fin 5]]]) =
     Ok ([0; 0], item (NDArray 1 [[Fin 5]]) 0 0)).
Proof.
  apply (single_node_tour (NDArray 1 [[Fin 5]]) [NDArray 1 [[Fin 5]]] 0).
  - apply (bool_decide_unpack _). vm_compute. exact I.
  - reflexivity.
Defined.

(** C5, as stated, fails: on [[0, 1], [-5, 0]] the closed distance is
    -4 and the open distance is 1. *)
Lemma closed_below_open :
  snd (solve_tsp_brute_force 0 false [skewed]) = Ok ([0; 1; 0], Fin (-4)) /\
  snd (solve_tsp_brute_force 0 true [skewed]) = Ok ([0; 1], Fin 1) /\
  num_leb (Fin 1) (Fin (-4)) = false.
Proof. repeat split. Qed.

(** ** The enumeration order *)

Lemma picks_elem_of {A} (l : list A) x rest :
  (x, rest) ∈ picks l -> x ∈ l /\ (forall y, y ∈ rest -> y ∈ l).
Proof.
  intros H. apply picks_perm in H. split.
  - rewrite H. apply list_elem_of_here.
  - intros y Hy. rewrite H. apply list_elem_of_further, Hy.
Qed.

Lemma StronglySorted_map_fst {A B} (g : nat * A -> nat * B) ps :
  (forall u, fst (g u) = fst u) ->
  StronglySorted (fun u v => fst u < fst v) ps ->
  StronglySorted (fun u v => fst u < fst v) (map g ps).
Proof.
  intros Hg. induction 1 as [|u ps _ IH Hu]; simpl; constructor; auto.
  rewrite Forall_forall in Hu. rewrite Forall_forall. intros v Hv.
  apply list_elem_of_fmap in Hv as [w [-> Hw]]. rewrite !Hg. auto.
Qed.

(** Taking one element out of an increasing list: the elements taken
    come in increasing order, and what is left is increasing. *)
Lemma picks_sorted l :
  StronglySorted lt l ->
  StronglySorted (fun u v => fst u < fst v) (picks l) /\
  Forall (fun u => StronglySorted lt (snd u)) (picks l).
Proof.
  induction 1 as [|y l Hl IH Hy]; simpl.
  - split; constructor.
  - destruct IH as [IH1 IH2]. rewrite Forall_forall in Hy. rewrite Forall_forall in IH2.
    split; constructor; simpl; auto.
    + apply StronglySorted_map_fst; auto. intros [z zs]. reflexivity.
    + rewrite Forall_forall. intros v Hv.
      apply list_elem_of_fmap in Hv as [[z zs] [-> Hin]]. simpl.
      destruct (picks_elem_of l z zs Hin) as [Hz _]. apply Hy, Hz.
    + rewrite Forall_forall. intros v Hv.
      apply list_elem_of_fmap in Hv as [[z zs] [-> Hin]]. simpl.
      destruct (picks_elem_of l z zs Hin) as [_ Hzs].
      constructor.
      * apply (IH2 _ Hin).
      * rewrite Forall_forall. intros w Hw. apply Hy, Hzs, Hw.
Qed.

Lemma flat_map_sorted {A B} (R : B -> B -> Prop) (S : A -> A -> Prop)
    (f : A -> list B) (l : list A) :
  StronglySorted S l ->
  (forall x, x ∈ l -> StronglySorted R (f x)) ->
  (forall x y u v, x ∈ l -> y ∈ l -> S x y -> u ∈ f x -> v ∈ f y -> R u v) ->
  StronglySorted R (flat_map f l).
Proof.
  induction 1 as [|x l Hl IH Hx]; intros Hin Hcross; simpl.
  - constructor.
  - rewrite Forall_forall in Hx. apply StronglySorted_app_2.
    + intros u v Hu Hv.
      apply list_elem_of_In, in_flat_map in Hv as [y [Hy Hv]].
      apply list_elem_of_In in Hy, Hv.
      apply (Hcross x y); auto.
      * apply list_elem_of_here.
      * apply list_elem_of_further, Hy.
    + apply Hin, list_elem_of_here.
    + apply IH.
      * intros y Hy. apply Hin, list_elem_of_further, Hy.
      * intros y z u v Hy Hz. apply Hcross; apply list_elem_of_further; auto.
Qed.

Lemma map_cons_sorted x ls :
  StronglySorted lex_lt ls -> StronglySorted lex_lt (map (cons x) ls).
Proof.
  induction 1 as [|p ls _ IH Hp]; simpl; constructor; auto.
  rewrite Forall_forall in Hp. rewrite Forall_forall. intros q Hq.
  apply list_elem_of_fmap in Hq as [q' [-> Hq']].
  apply lex_lt_tail, Hp, Hq'.
Qed.

Lemma permutations_of_length_sorted k l :
  StronglySorted lt l ->
  StronglySorted lex_lt (permutations_of_length k l).
Proof.
  revert l. induction k as [|k IH]; intros l Hl; simpl.
  - repeat constructor.
  - destruct (picks_sorted l Hl) as [Hfst Hrest].
    rewrite Forall_forall in Hrest.
    apply (flat_map_sorted _ (fun u v => fst u < fst v)); auto.
    + intros [x rest] Hin. apply map_cons_sorted, IH, (Hrest _ Hin).
    + intros [x rest] [y rest'] u v _ _ Hxy Hu Hv. simpl in Hxy.
      apply list_elem_of_fmap in Hu as [u' [-> _]].
      apply list_elem_of_fmap in Hv as [v' [-> _]].
      apply lex_lt_head, Hxy.
Qed.

Lemma seq_sorted start len : StronglySorted lt (seq start len).
Proof.
  revert start. induction len as [|len IH]; intros start; simpl; constructor.
  - apply IH.
  - apply Forall_seq. intros j Hj. lia.
Qed.

(** The candidates of the solver are enumerated in strictly increasing
    lexicographic order. *)
Lemma candidates_sorted n :
  StronglySorted lex_lt (permutations (seq 1 (n - 1))).
Proof. apply permutations_of_length_sorted, seq_sorted. Qed.

(** * Further properties *)

(** ** Bounds checks of [_permutation_distance] *)

Lemma check_indices_cases axis size ind :
  (in_range size ind /\ check_indices axis size ind = Ok tt) \/
  (exists i, i ∈ ind /\ size <= i /\
             check_indices axis size ind = Raise (IndexError i axis size)).
Proof.
  unfold check_indices.
  destruct (find (fun i => negb (i <? size)) ind) as [i|] eqn:E.
  - right. apply find_some in E as [Hin Hb]. exists i.
    apply negb_true_iff, Nat.ltb_ge in Hb.
    split; [apply list_elem_of_In, Hin|]. split; [lia | reflexivity].
  - left. split; [|reflexivity]. apply List.Forall_forall. intros i Hin.
    pose proof (find_none _ _ E i Hin) as Hb.
    apply negb_false_iff, Nat.ltb_lt in Hb. exact Hb.
Qed.

(** X1. [_permutation_distance] only reads the store.  It returns the
    paired sum when node 0 and every node of the permutation index a
    row and a column of the matrix; otherwise it raises an [IndexError]
    that names a node of [[0] + permutation] that is not below the size
    of the axis. *)
Theorem permutation_distance_outcome (h : list ndarray) (r : nat) a p :
  h !! r = Some a ->
  fst (_permutation_distance p r h) = h /\
  ((in_range (length (rows a)) ([0] ++ p) /\
    in_range (ncols a) ([0] ++ p) /\
    snd (_permutation_distance p r h) =
      Ok (sum (zip_with (item a) ([0] ++ p) (p ++ [0])))) \/
   (exists i axis size,
      snd (_permutation_distance p r h) = Raise (IndexError i axis size) /\
      i ∈ [0] ++ p /\ size <= i /\
      ((axis = 0 /\ size = length (rows a)) \/
       (axis = 1 /\ size = ncols a)))).
Proof.
  intros Hr. split; [apply permutation_distance_heap|].
  unfold _permutation_distance, bind, get_array, lift, ret, getitem_fancy.
  rewrite Hr.
  destruct (check_indices_cases 0 (length (rows a)) ([0] ++ p))
    as [[H1 ->] | (i & Hi & Hsz & ->)].
  - destruct (check_indices_cases 1 (ncols a) (p ++ [0]))
      as [[H2 ->] | (i & Hi & Hsz & ->)].
    + left. split; [exact H1|]. split; [|reflexivity].
      unfold in_range in *. apply Forall_app in H2 as [H2 H3].
      apply Forall_app. split; assumption.
    + right. exists i, 1, (ncols a). split; [reflexivity|].
      split; [|split; [exact Hsz | right; auto]].
      apply elem_of_app in Hi as [Hi | Hi]; apply elem_of_app; auto.
  - right. exists i, 0, (length (rows a)). split; [reflexivity|].
    split; [exact Hi|]. split; [exact Hsz | left; auto].
Qed.

Lemma permutation_distance_outcome_witness :
  fst (_permutation_distance [1; 2] 0 [tall]) = [tall] /\
  ((in_range (length (rows tall)) ([0] ++ [1; 2]) /\
    in_range (ncols tall) ([0] ++ [1; 2]) /\
    snd (_permutation_distance [1; 2] 0 [tall]) =
      Ok (sum (zip_with (item tall) ([0] ++ [1; 2]) ([1; 2] ++ [0])))) \/
   (exists i axis size,
      snd (_permutation_distance [1; 2] 0 [tall]) =
        Raise (IndexError i axis size) /\
      i ∈ [0] ++ [1; 2] /\ size <= i /\
      ((axis = 0 /\ size = length (rows tall)) \/
       (axis = 1 /\ size = ncols tall)))).
Proof. apply (permutation_distance_outcome [tall] 0 tall [1; 2]). reflexivity. Defined.

(** ** Matrices that are not square *)

(** The enumeration starts with the candidates in their given order. *)
Lemma permutations_head {A} (l : list A) :
  exists others, permutations l = l :: others.
Proof.
  unfold permutations. induction l as [|x l [others IH]]; simpl.
  - exists []. reflexivity.
  - rewrite IH. simpl. eexists. reflexivity.
Qed.

Lemma find_seq_first m start len others :
  start <= m < start + len ->
  find (fun i => negb (i <? m)) (seq start len ++ others) = Some m.
Proof.
  revert start. induction len as [|len IH]; intros start H; [lia|]. simpl.
  destruct (start <? m) eqn:E; simpl.
  - apply Nat.ltb_lt in E. apply IH. lia.
  - apply Nat.ltb_ge in E. f_equal. lia.
Qed.

Lemma first_candidate_out_of_columns h r a n m :
  h !! r = Some a -> length (rows a) = n -> ncols a = m -> 1 <= m < n ->
  _permutation_distance (seq 1 (n - 1)) r h = (h, Raise (IndexError m 1 m)).
Proof.
  intros Hr Hrows Hcols Hm.
  unfold _permutation_distance, bind, get_array, lift, ret, getitem_fancy.
  rewrite Hr, Hrows, Hcols.
  rewrite check_indices_ok.
  2:{ constructor; [lia|]. apply Forall_seq. intros j Hj. lia. }
  unfold check_indices. rewrite find_seq_first by lia. reflexivity.
Qed.

(** X2. A matrix with more rows than columns (n rows, m columns,
    1 <= m < n) is not accepted: for either value of the flag the first
    candidate already visits node m, which is no column, and the call
    raises [IndexError] for index m on axis 1. *)
Theorem fewer_columns_than_rows_raises (h : list ndarray) (r : nat) a n m
    open_tsp :
  h !! r = Some a -> length (rows a) = n -> ncols a = m -> 1 <= m < n ->
  snd (solve_tsp_brute_force r open_tsp h) = Raise (IndexError m 1 m).
Proof.
  intros Hr Hrows Hcols Hm.
  cbv beta delta [solve_tsp_brute_force bind get_array copy setitem_column ret raise].
  rewrite Hr. cbv beta iota zeta. cbn [shape fst]. rewrite Hrows.
  destruct (permutations_head (seq 1 (n - 1))) as [others ->].
  destruct open_tsp.
  - rewrite Hr. cbv beta iota zeta.
    rewrite list_lookup_middle by reflexivity. cbv beta iota zeta.
    destruct (decide (0 < ncols a)) as [_|Hbad]; [|lia].
    rewrite insert_app_r_alt by lia. rewrite Nat.sub_diag. simpl insert.
    simpl search. unfold bind.
    rewrite (first_candidate_out_of_columns _ _ (working a true) n m); auto.
    + apply list_lookup_middle. reflexivity.
    + simpl. rewrite length_map. exact Hrows.
  - simpl search. unfold bind.
    rewrite (first_candidate_out_of_columns _ _ a n m); auto.
Qed.

Lemma fewer_columns_than_rows_raises_witness :
  snd (solve_tsp_brute_force 0 true [tall]) = Raise (IndexError 2 1 2).
Proof.
  apply (fewer_columns_than_rows_raises [tall] 0 tall 3 2 true).
  - reflexivity.
  - reflexivity.
  - reflexivity.
  - lia.
Defined.

Lemma solve_run_wide n a h r open_tsp :
  1 <= n -> length (rows a) = n -> n <= ncols a -> h !! r = Some a ->
  solve_tsp_brute_force r open_tsp h =
  ((if open_tsp then h ++ [working a true] else h),
   best_result open_tsp
     (fold_left (step (working a open_tsp)) (permutations (seq 1 (n - 1)))
                (PInf, None))).
Proof.
  intros Hn Hrows Hcols Hr.
  assert (Hcand : Forall (fun p => in_range n p /\ in_range (ncols a) p)
                         (permutations (seq 1 (n - 1)))).
  { eapply Forall_impl; [apply candidates_in_range|].
    intros p [Hp _]. split; [exact Hp|].
    eapply Forall_impl; [exact Hp|]. intros i Hi. simpl in Hi. lia. }
  cbv beta delta [solve_tsp_brute_force bind get_array copy setitem_column ret raise].
  rewrite Hr. cbv beta iota zeta. cbn [shape fst]. rewrite Hrows.
  destruct open_tsp.
  - rewrite Hr. cbv beta iota zeta.
    rewrite list_lookup_middle by reflexivity. cbv beta iota zeta.
    destruct (decide (0 < ncols a)) as [_|Hbad]; [|lia].
    replace (<[length h := _]> (h ++ [a])) with (h ++ [working a true]).
    2:{ rewrite insert_app_r_alt by lia. rewrite Nat.sub_diag. reflexivity. }
    rewrite (search_run (h ++ [working a true]) (length h) (working a true)).
    + destruct (fold_left _ _ _) as [bd [p|]]; reflexivity.
    + apply list_lookup_middle. reflexivity.
    + simpl. rewrite length_map. lia.
    + simpl. lia.
    + simpl. rewrite length_map, Hrows. exact Hcand.
  - rewrite (search_run h r a); try lia; auto.
    + destruct (fold_left _ _ _) as [bd [p|]]; reflexivity.
    + rewrite Hrows. exact Hcand.
Qed.

Lemma item_working_zero a i : item (working a true) i 0 = Fin 0.
Proof.
  unfold item. simpl.
  change (map (fun row : list num => <[0 := Fin 0]> row) (rows a))
    with ((fun row : list num => <[0 := Fin 0]> row) <$> rows a).
  rewrite list_lookup_fmap.
  destruct (rows a !! i) as [[|x row]|]; reflexivity.
Qed.

Lemma item_working_other a i j :
  j <> 0 -> item (working a true) i j = item a i j.
Proof.
  intros Hj. unfold item. simpl.
  change (map (fun row : list num => <[0 := Fin 0]> row) (rows a))
    with ((fun row : list num => <[0 := Fin 0]> row) <$> rows a).
  rewrite list_lookup_fmap.
  destruct (rows a !! i) as [row|]; simpl; [|reflexivity].
  destruct j as [|j]; [congruence|]. destruct row; reflexivity.
Qed.

Lemma zip_with_agree {X} (f g : nat -> nat -> X) n l k :
  (forall i j, i < n -> j < n -> f i j = g i j) ->
  in_range n l -> in_range n k ->
  zip_with f l k = zip_with g l k.
Proof.
  intros Hfg Hl. revert k.
  induction Hl as [|i l Hi _ IH]; intros k Hk; [reflexivity|].
  destruct Hk as [|j k Hj Hk]; [reflexivity|]. simpl.
  rewrite (Hfg i j Hi Hj), (IH k Hk). reflexivity.
Qed.

Lemma fold_step_agree a a' candidates b :
  (forall q, q ∈ candidates -> paired_sum a q = paired_sum a' q) ->
  fold_left (step a) candidates b = fold_left (step a') candidates b.
Proof.
  revert b. induction candidates as [|p rest IH]; intros b H; simpl.
  - reflexivity.
  - unfold step at 2 4. rewrite (H p) by apply list_elem_of_here.
    apply IH. intros q Hq. apply H, list_elem_of_further, Hq.
Qed.

(** X3. The result of a call on a matrix with n >= 1 rows and at least n
    columns depends only on the entries [(i, j)] with [i, j < n], and
    for an open problem not on those of column 0: two matrices that
    agree there give the same tour and distance, or the same error. *)
Theorem result_depends_on_entries_used (h h' : list ndarray) (r r' : nat)
    a a' n open_tsp :
  1 <= n ->
  length (rows a) = n -> n <= ncols a ->
  length (rows a') = n -> n <= ncols a' ->
  h !! r = Some a -> h' !! r' = Some a' ->
  (forall i j, i < n -> j < n -> (open_tsp = true -> j <> 0) ->
               item a i j = item a' i j) ->
  snd (solve_tsp_brute_force r open_tsp h) =
  snd (solve_tsp_brute_force r' open_tsp h').
Proof.
  intros Hn Hrows Hcols Hrows' Hcols' Hr Hr' Hagree.
  rewrite (solve_run_wide n a h r open_tsp Hn Hrows Hcols Hr).
  rewrite (solve_run_wide n a' h' r' open_tsp Hn Hrows' Hcols' Hr').
  cbn [snd]. f_equal. apply fold_step_agree. intros q Hq.
  assert (Hq' : in_range n q).
  { apply in_range_points. symmetry. apply elem_of_permutations, Hq. }
  unfold paired_sum. f_equal. apply (zip_with_agree _ _ n).
  - intros i j Hi Hj. destruct open_tsp.
    + destruct (decide (j = 0)) as [-> | Hne].
      * rewrite !item_working_zero. reflexivity.
      * rewrite !item_working_other by exact Hne. apply Hagree; auto.
    + apply Hagree; auto; discriminate.
  - constructor; [lia | exact Hq'].
  - apply Forall_app. split; [exact Hq' | constructor; [lia | constructor]].
Qed.

Lemma result_depends_on_entries_used_witness :
  snd (solve_tsp_brute_force 0 true [skewed]) =
  snd (solve_tsp_brute_force 0 true [wide]).
Proof.
  apply (result_depends_on_entries_used [skewed] [wide] 0 0 skewed wide 2 true).
  - lia.
  - reflexivity.
  - simpl. lia.
  - reflexivity.
  - simpl. lia.
  - reflexivity.
  - reflexivity.
  - intros [|[|i]] [|[|j]] Hi Hj Hopen; try lia; try reflexivity;
      exfalso; apply Hopen; reflexivity.
Defined.

(** ** Entries that are infinite or NaN *)

Lemma not_ltb_leb_or_nan x d :
  d <> NaN -> num_ltb x d = false -> x = NaN \/ num_leb d x = true.
Proof.
  intros Hd Hlt. destruct x as [z| | |]; [right|right|right|left; reflexivity];
    apply Num.not_ltb_leb; auto; discriminate.
Qed.



Example patchy_skips_nan :
  tour_distance patchy [1; 2] = Ok NaN /\
  snd (solve_tsp_brute_force 0 false [patchy]) = Ok ([0; 2; 1; 0], Fin 6).
Proof. split; reflexivity. Qed.

(** ** The distance as the length of the returned tour *)

Lemma add_zero_l x : num_add (Fin 0) x = x.
Proof. destruct x; reflexivity. Qed.

Lemma add_zero_r x : num_add x (Fin 0) = x.
Proof. destruct x; simpl; try reflexivity. f_equal. lia. Qed.






Lemma lex_lt_irrefl p : ~ lex_lt p p.
Proof.
  induction p as [|x p IH]; intros H; inversion H; subst; auto. lia.
Qed.

(** ** Two nodes *)

(** X7. On a 2-by-2 matrix there is one candidate, [1].  A closed
    problem returns the tour [0, 1, 0] with distance
    [a[0][1] + a[1][0]], and an open problem the tour [0, 1] with
    distance [a[0][1]], provided that distance is strictly below
    infinity. *)
Theorem two_nodes (h : list ndarray) (r : nat) a :
  square 2 a -> h !! r = Some a ->
  (num_ltb (num_add (item a 0 1) (item a 1 0)) PInf = true ->
   snd (solve_tsp_brute_force r false h) =
     Ok ([0; 1; 0], num_add (item a 0 1) (item a 1 0))) /\
  (num_ltb (item a 0 1) PInf = true ->
   snd (solve_tsp_brute_force r true h) = Ok ([0; 1], item a 0 1)).
Proof.
  intros (Hrows & Hcols & _) Hr.
  assert (H2 : 1 <= 2) by lia.
  rewrite !(solve_run 2 a h r _ H2 Hrows Hcols Hr). cbn [snd].
  change (permutations (seq 1 (2 - 1))) with [[1]].
  cbn [fold_left]. unfold step, best_result. cbn [fst].
  assert (Hc : paired_sum (working a false) [1] =
               num_add (item a 0 1) (item a 1 0)).
  { unfold paired_sum, sum. cbn [app zip_with fold_left working].
    rewrite add_zero_l. reflexivity. }
  assert (Ho : paired_sum (working a true) [1] = item a 0 1).
  { unfold paired_sum, sum. cbn [app zip_with fold_left].
    rewrite item_working_zero, item_working_other by discriminate.
    rewrite add_zero_l, add_zero_r. reflexivity. }
  rewrite Hc, Ho. split; intros Hlt.
  - assert (E : num_ltb (num_add (item a 0 1) (item a 1 0)) PInf = true)
      by exact Hlt.
    destruct (num_add (item a 0 1) (item a 1 0)); try discriminate; reflexivity.
  - destruct (item a 0 1); try discriminate; reflexivity.
Qed.

Lemma two_nodes_witness :
  (num_ltb (num_add (item skewed 0 1) (item skewed 1 0)) PInf = true ->
   snd (solve_tsp_brute_force 0 false [skewed]) =
     Ok ([0; 1; 0], num_add (item skewed 0 1) (item skewed 1 0))) /\
  (num_ltb (item skewed 0 1) PInf = true ->
   snd (solve_tsp_brute_force 0 true [skewed]) = Ok ([0; 1], item skewed 0 1)).
Proof.
  apply (two_nodes [skewed] 0 skewed).
  - apply (bool_decide_unpack _). vm_compute. exact I.
  - reflexivity.
Defined.

(** ** A matrix without rows *)

(** X9. A matrix without rows is not accepted, however many columns its
    shape has.  A closed problem evaluates the empty candidate and
    raises [IndexError] for row 0; so does an open problem, unless the
    matrix has no column either, in which case the assignment to column
    0 raises first. *)
Theorem no_rows_raises (h : list ndarray) (r : nat) a :
  rows a = [] -> h !! r = Some a ->
  snd (solve_tsp_brute_force r false h) = Raise (IndexError 0 0 0) /\
  snd (solve_tsp_brute_force r true h) =
    Raise (IndexError 0 (if decide (ncols a = 0) then 1 else 0) 0).
Proof.
  intros Hrows Hr. destruct a as [c rs]. simpl in Hrows. subst rs.
  split.
  - cbv beta delta [solve_tsp_brute_force bind get_array ret raise].
    rewrite Hr. cbv beta iota zeta. simpl.
    unfold bind, _permutation_distance, bind, get_array.
    rewrite Hr. reflexivity.
  - cbv beta delta [solve_tsp_brute_force bind get_array copy setitem_column ret raise].
    rewrite Hr. cbv beta iota zeta. rewrite Hr. cbv beta iota zeta.
    rewrite list_lookup_middle by reflexivity. cbv beta iota zeta.
    cbn [ncols rows].
    destruct (decide (0 < c)) as [Hc|Hc]; cbv beta iota zeta.
    + destruct (decide (c = 0)) as [->|_]; [lia|].
      rewrite insert_app_r_alt by lia. rewrite Nat.sub_diag.
      simpl. unfold bind, _permutation_distance, bind, get_array.
      rewrite list_lookup_middle by reflexivity. reflexivity.
    + destruct (decide (c = 0)) as [->|Hne]; [reflexivity | lia].
Qed.

Lemma no_rows_raises_witness :
  snd (solve_tsp_brute_force 0 false [NDArray 3 []]) =
    Raise (IndexError 0 0 0) /\
  snd (solve_tsp_brute_force 0 true [NDArray 3 []]) =
    Raise (IndexError 0 (if decide (ncols (NDArray 3 []) = 0) then 1 else 0) 0).
Proof.
  apply (no_rows_raises [NDArray 3 []] 0 (NDArray 3 [])); reflexivity.
Defined.

(** * What a call returns, and when *)

Lemma lex_lt_trans p q r : lex_lt p q -> lex_lt q r -> lex_lt p r.
Proof.
  intros H. revert r.
  induction H as [y ys|x y xs ys Hxy|x xs ys _ IH]; intros r Hr;
    inversion Hr; subst.
  - constructor.
  - constructor.
  - apply lex_lt_head. lia.
  - apply lex_lt_head. exact Hxy.
  - apply lex_lt_head. assumption.
  - apply lex_lt_tail, IH. assumption.
Qed.

(** A candidate whose distance is below infinity makes the call return. *)
Lemma solve_returns n a h r open_tsp q :
  1 <= n -> square n a -> h !! r = Some a ->
  q ≡ₚ seq 1 (n - 1) ->
  num_ltb (paired_sum (working a open_tsp) q) PInf = true ->
  exists tour d, snd (solve_tsp_brute_force r open_tsp h) = Ok (tour, d).
Proof.
  intros Hn (Hrows & Hcols & _) Hr Hq Hlt.
  rewrite (solve_run n a h r open_tsp Hn Hrows Hcols Hr). cbn [snd].
  destruct (search_finds (working a open_tsp) (permutations (seq 1 (n - 1))) q)
    as [p Hp]; auto.
  { apply elem_of_permutations. symmetry. exact Hq. }
  unfold best_result. rewrite Hp. eauto.
Qed.

(** What is known of a returned result: the candidate inside the tour,
    its place in the enumeration, and how its distance compares. *)
Lemma solve_returned n a h r open_tsp tour d :
  1 <= n -> square n a -> h !! r = Some a ->
  snd (solve_tsp_brute_force r open_tsp h) = Ok (tour, d) ->
  exists before p after,
    permutations (seq 1 (n - 1)) = before ++ p :: after /\
    tour = [0] ++ p ++ (if open_tsp then [] else [0]) /\
    p ≡ₚ seq 1 (n - 1) /\
    d = paired_sum (working a open_tsp) p /\
    d <> NaN /\ num_ltb d PInf = true /\
    (forall q, q ∈ before ->
       num_leb (paired_sum (working a open_tsp) q) d = false) /\
    (forall q, q ≡ₚ seq 1 (n - 1) ->
       num_ltb (paired_sum (working a open_tsp) q) d = false).
Proof.
  intros Hn (Hrows & Hcols & _) Hr.
  rewrite (solve_run n a h r open_tsp Hn Hrows Hcols Hr). cbn [snd].
  set (W := working a open_tsp).
  set (candidates := permutations (seq 1 (n - 1))).
  pose proof (search_inv_run W candidates) as (Hnan & Hmin & Hbest).
  unfold best_result.
  destruct (snd (fold_left (step W) candidates (PInf, None)))
    as [p|]; [|intros Hres; discriminate Hres].
  intros [= <- <-].
  destruct Hbest as (Hd & Hlt & before & after & Hsplit & Hfirst).
  exists before, p, after.
  split; [exact Hsplit|]. split; [reflexivity|]. split.
  { symmetry. apply elem_of_permutations. fold candidates. rewrite Hsplit.
    apply elem_of_app. right. apply list_elem_of_here. }
  split; [exact Hd|]. split; [exact Hnan|]. split; [exact Hlt|].
  split; [exact Hfirst|].
  intros q Hq. apply Hmin, elem_of_permutations. symmetry. exact Hq.
Qed.



(** C2. On an n-by-n matrix (n >= 1) a call returns whenever some
    ordering of 1..n-1 has a distance strictly below infinity, and every
    tour it returns is [[0] + p], followed by one more 0 exactly when
    the problem is closed, where [[0] + p] is an ordering of 0..n-1
    without repetition; the tour starts at node 0, ends at node 0 when
    closed, and has n entries when open and n+1 when closed. *)
Theorem tour_is_permutation (h : list ndarray) (r : nat) a n open_tsp :
  1 <= n -> square n a -> h !! r = Some a ->
  ((exists q, q ≡ₚ seq 1 (n - 1) /\
      num_ltb (sum (zip_with (item (working a open_tsp)) ([0] ++ q) (q ++ [0])))
              PInf = true) ->
   exists tour d, snd (solve_tsp_brute_force r open_tsp h) = Ok (tour, d)) /\
  (forall tour d,
     snd (solve_tsp_brute_force r open_tsp h) = Ok (tour, d) ->
     exists p,
       tour = [0] ++ p ++ (if open_tsp then [] else [0]) /\
       [0] ++ p ≡ₚ seq 0 n /\
       NoDup ([0] ++ p) /\
       head tour = Some 0 /\
       (open_tsp = false -> last tour = Some 0) /\
       length tour = (if open_tsp then n else n + 1)).
Proof.
  intros Hn Hsq Hr. split.
  - intros (q & Hq & Hlt). apply (solve_returns n a h r open_tsp q); auto.
  - intros tour d Hres.
    destruct (solve_returned n a h r open_tsp tour d Hn Hsq Hr Hres)
      as (before & p & after & _ & -> & Hp & _).
    assert (Hseq : seq 0 n = 0 :: seq 1 (n - 1)).
    { destruct n as [|m]; [lia|]. simpl. rewrite Nat.sub_0_r. reflexivity. }
    assert (Hperm : [0] ++ p ≡ₚ seq 0 n).
    { rewrite Hseq. simpl. rewrite Hp. reflexivity. }
    exists p. split; [reflexivity|]. split; [exact Hperm|].
    split; [rewrite Hperm; apply NoDup_seq|]. split; [reflexivity|]. split.
    + intros ->. change ([0] ++ p ++ [0]) with ((0 :: p) ++ [0]).
      apply last_snoc.
    + apply Permutation_length in Hp. rewrite length_seq in Hp.
      rewrite !length_app. simpl. destruct open_tsp; simpl; lia.
Qed.

Lemma tour_is_permutation_witness :
  ((exists q, q ≡ₚ seq 1 (3 - 1) /\
      num_ltb (sum (zip_with (item (working triangle false)) ([0] ++ q) (q ++ [0])))
              PInf = true) ->
   exists tour d, snd (solve_tsp_brute_force 0 false [triangle]) = Ok (tour, d)) /\
  (forall tour d,
     snd (solve_tsp_brute_force 0 false [triangle]) = Ok (tour, d) ->
     exists p,
       tour = [0] ++ p ++ [0] /\
       [0] ++ p ≡ₚ seq 0 3 /\
       NoDup ([0] ++ p) /\
       head tour = Some 0 /\
       (false = false -> last tour = Some 0) /\
       length tour = 3 + 1).
Proof.
  apply (tour_is_permutation [triangle] 0 triangle 3 false).
  - lia.
  - apply (bool_decide_unpack _). vm_compute. exact I.
  - reflexivity.
Defined.

(** C9. On an n-by-n matrix (n >= 1) a call returns whenever some
    ordering of 1..n-1 has a distance strictly below infinity, and the
    two components of every result are consistent: the distance is the
    sum of the entries of the working matrix paired by [[0] + p] against
    [p + [0]], where [p] is the returned tour without its leading 0 (and
    without its trailing 0 when closed); it is the value
    [_permutation_distance] gives for [p] on the working matrix. *)
Theorem distance_matches_tour (h : list ndarray) (r : nat) a n open_tsp :
  1 <= n -> square n a -> h !! r = Some a ->
  ((exists q, q ≡ₚ seq 1 (n - 1) /\
      num_ltb (sum (zip_with (item (working a open_tsp)) ([0] ++ q) (q ++ [0])))
              PInf = true) ->
   exists tour d, snd (solve_tsp_brute_force r open_tsp h) = Ok (tour, d)) /\
  (forall tour d,
     snd (solve_tsp_brute_force r open_tsp h) = Ok (tour, d) ->
     d = sum (zip_with (item (working a open_tsp))
                       ([0] ++ tour_permutation open_tsp tour)
                       (tour_permutation open_tsp tour ++ [0])) /\
     tour_distance (working a open_tsp) (tour_permutation open_tsp tour) = Ok d).
Proof.
  intros Hn Hsq Hr. split.
  - intros (q & Hq & Hlt). apply (solve_returns n a h r open_tsp q); auto.
  - intros tour d Hres.
    destruct (solve_returned n a h r open_tsp tour d Hn Hsq Hr Hres)
      as (before & p & after & _ & -> & Hp & -> & _).
    rewrite tour_permutation_tour. split; [reflexivity|].
    apply (tour_distance_working n); auto.
Qed.

Lemma distance_matches_tour_witness :
  ((exists q, q ≡ₚ seq 1 (3 - 1) /\
      num_ltb (sum (zip_with (item (working triangle true)) ([0] ++ q) (q ++ [0])))
              PInf = true) ->
   exists tour d, snd (solve_tsp_brute_force 0 true [triangle]) = Ok (tour, d)) /\
  (forall tour d,
     snd (solve_tsp_brute_force 0 true [triangle]) = Ok (tour, d) ->
     d = sum (zip_with (item (working triangle true))
                       ([0] ++ tour_permutation true tour)
                       (tour_permutation true tour ++ [0])) /\
     tour_distance (working triangle true) (tour_permutation true tour) = Ok d).
Proof.
  apply (distance_matches_tour [triangle] 0 triangle 3 true).
  - lia.
  - apply (bool_decide_unpack _). vm_compute. exact I.
  - reflexivity.
Defined.




(** C5, amended. On an n-by-n matrix (n >= 1) such that, for every
    ordering of 1..n-1 whose closed distance is strictly below infinity,
    the open distance of that ordering (the same sum on the copy with
    column 0 zeroed) is less than or equal to its closed distance:
    whenever the closed problem returns a distance, the open problem on
    the same matrix returns a distance that is less than or equal to
    it. *)
Theorem closed_at_least_open (h : list ndarray) (r : nat) a n closed_tour
    closed_distance :
  1 <= n -> square n a -> h !! r = Some a ->
  (forall q, q ≡ₚ seq 1 (n - 1) ->
     num_ltb (sum (zip_with (item a) ([0] ++ q) (q ++ [0]))) PInf = true ->
     num_leb (sum (zip_with (item (working a true)) ([0] ++ q) (q ++ [0])))
             (sum (zip_with (item a) ([0] ++ q) (q ++ [0]))) = true) ->
  snd (solve_tsp_brute_force r false h) = Ok (closed_tour, closed_distance) ->
  exists open_tour open_distance,
    snd (solve_tsp_brute_force r true h) = Ok (open_tour, open_distance) /\
    num_leb open_distance closed_distance = true.
Proof.
  intros Hn Hsq Hr Hle Hclosed.
  destruct (solve_returned n a h r false _ _ Hn Hsq Hr Hclosed)
    as (_ & p & _ & _ & _ & Hp & Hd & _ & Hlt & _).
  simpl working in Hd. subst closed_distance.
  specialize (Hle p Hp Hlt).
  destruct (solve_returns n a h r true p Hn Hsq Hr Hp) as (to & od & Hopen).
  { eapply Num.leb_ltb_trans; [exact Hle | exact Hlt]. }
  exists to, od. split; [exact Hopen|].
  destruct (solve_returned n a h r true _ _ Hn Hsq Hr Hopen)
    as (_ & p' & _ & _ & _ & _ & _ & Hnan & _ & _ & Hmin).
  eapply Num.leb_trans; [|exact Hle].
  apply Num.not_ltb_leb; [|exact Hnan|apply Hmin, Hp].
  eapply Num.leb_not_nan_l. exact Hle.
Qed.

Lemma closed_at_least_open_witness :
  exists open_tour open_distance,
    snd (solve_tsp_brute_force 0 true [triangle]) =
      Ok (open_tour, open_distance) /\
    num_leb open_distance (Fin 6) = true.
Proof.
  apply (closed_at_least_open [triangle] 0 triangle 3 [0; 1; 2; 0] (Fin 6)).
  - lia.
  - apply (bool_decide_unpack _). vm_compute. exact I.
  - reflexivity.
  - intros q Hq _. symmetry in Hq. apply elem_of_permutations in Hq.
    vm_compute in Hq.
    repeat (apply elem_of_cons in Hq as [-> | Hq]; [reflexivity|]).
    apply elem_of_nil in Hq. destruct Hq.
  - reflexivity.
Defined.

(** * Further properties of a returned result *)

(** X6. Every ordering is weighed.  On an n-by-n matrix (n >= 1) a call
    returns whenever some ordering of 1..n-1 has a distance strictly
    below infinity; and whenever it returns [[0] + p (+ [0])] and [d],
    [p] is an ordering of 1..n-1, [d] is the sum of the entries of the
    working matrix paired by [[0] + p] against [p + [0]], and every
    ordering of 1..n-1 has a distance that is NaN or at least [d]. *)
Theorem returned_distance_is_minimum (h : list ndarray) (r : nat) a n
    open_tsp :
  1 <= n -> square n a -> h !! r = Some a ->
  ((exists q, q ≡ₚ seq 1 (n - 1) /\
      num_ltb (sum (zip_with (item (working a open_tsp)) ([0] ++ q) (q ++ [0])))
              PInf = true) ->
   exists tour d, snd (solve_tsp_brute_force r open_tsp h) = Ok (tour, d)) /\
  (forall tour d,
     snd (solve_tsp_brute_force r open_tsp h) = Ok (tour, d) ->
     exists p,
       tour = [0] ++ p ++ (if open_tsp then [] else [0]) /\
       p ≡ₚ seq 1 (n - 1) /\
       d = sum (zip_with (item (working a open_tsp)) ([0] ++ p) (p ++ [0])) /\
       forall q, q ≡ₚ seq 1 (n - 1) ->
         sum (zip_with (item (working a open_tsp)) ([0] ++ q) (q ++ [0])) = NaN \/
         num_leb d (sum (zip_with (item (working a open_tsp))
                                  ([0] ++ q) (q ++ [0]))) = true).
Proof.
  intros Hn Hsq Hr. split.
  - intros (q & Hq & Hlt). apply (solve_returns n a h r open_tsp q); auto.
  - intros tour d Hres.
    destruct (solve_returned n a h r open_tsp tour d Hn Hsq Hr Hres)
      as (_ & p & _ & _ & -> & Hp & Hd & Hnan & _ & _ & Hmin).
    exists p. split; [reflexivity|]. split; [exact Hp|]. split; [exact Hd|].
    intros q Hq. apply not_ltb_leb_or_nan; [exact Hnan | apply Hmin, Hq].
Qed.

Lemma returned_distance_is_minimum_witness :
  ((exists q, q ≡ₚ seq 1 (3 - 1) /\
      num_ltb (sum (zip_with (item (working patchy false)) ([0] ++ q) (q ++ [0])))
              PInf = true) ->
   exists tour d, snd (solve_tsp_brute_force 0 false [patchy]) = Ok (tour, d)) /\
  (forall tour d,
     snd (solve_tsp_brute_force 0 false [patchy]) = Ok (tour, d) ->
     exists p,
       tour = [0] ++ p ++ [0] /\
       p ≡ₚ seq 1 (3 - 1) /\
       d = sum (zip_with (item (working patchy false)) ([0] ++ p) (p ++ [0])) /\
       forall q, q ≡ₚ seq 1 (3 - 1) ->
         sum (zip_with (item (working patchy false)) ([0] ++ q) (q ++ [0])) = NaN \/
         num_leb d (sum (zip_with (item (working patchy false))
                                  ([0] ++ q) (q ++ [0]))) = true).
Proof.
  apply (returned_distance_is_minimum [patchy] 0 patchy 3 false).
  - lia.
  - apply (bool_decide_unpack _). vm_compute. exact I.
  - reflexivity.
Defined.

(** X11. Ties go to the first ordering.  Whenever a call on an n-by-n
    matrix (n >= 1) returns [[0] + p (+ [0])] and [d], every ordering of
    1..n-1 that comes before [p] in lexicographic order (the order of
    the enumeration) has a distance that is not less than or equal to
    [d], and every ordering that comes after [p] has a distance that is
    not strictly less than [d]: [p] is the first ordering of minimal
    distance. *)
Theorem returned_tour_is_first_minimum (h : list ndarray) (r : nat) a n
    open_tsp tour d :
  1 <= n -> square n a -> h !! r = Some a ->
  snd (solve_tsp_brute_force r open_tsp h) = Ok (tour, d) ->
  exists p,
    tour = [0] ++ p ++ (if open_tsp then [] else [0]) /\
    p ≡ₚ seq 1 (n - 1) /\
    d = sum (zip_with (item (working a open_tsp)) ([0] ++ p) (p ++ [0])) /\
    forall q, q ≡ₚ seq 1 (n - 1) ->
      (lex_lt q p ->
       num_leb (sum (zip_with (item (working a open_tsp)) ([0] ++ q) (q ++ [0])))
               d = false) /\
      (lex_lt p q ->
       num_ltb (sum (zip_with (item (working a open_tsp)) ([0] ++ q) (q ++ [0])))
               d = false).
Proof.
  intros Hn Hsq Hr Hres.
  destruct (solve_returned n a h r open_tsp tour d Hn Hsq Hr Hres)
    as (before & p & after & Hsplit & -> & Hp & Hd & _ & _ & Hfirst & Hmin).
  exists p. split; [reflexivity|]. split; [exact Hp|]. split; [exact Hd|].
  intros q Hq. split; [|intros _; apply Hmin, Hq].
  intros Hlex.
  pose proof (candidates_sorted n) as Hsorted. rewrite Hsplit in Hsorted.
  apply StronglySorted_app in Hsorted as (_ & _ & Hafter).
  apply StronglySorted_cons in Hafter as [Hafter _].
  rewrite Forall_forall in Hafter.
  assert (Hin : q ∈ before ++ p :: after).
  { rewrite <- Hsplit. apply elem_of_permutations. symmetry. exact Hq. }
  apply elem_of_app in Hin as [Hin | Hin]; [apply Hfirst, Hin|].
  exfalso. apply elem_of_cons in Hin as [-> | Hin].
  - apply (lex_lt_irrefl p), Hlex.
  - apply (lex_lt_irrefl q). apply (lex_lt_trans q p q); auto.
Qed.

Lemma returned_tour_is_first_minimum_witness :
  exists p,
    [0; 1; 2; 0] = [0] ++ p ++ [0] /\
    p ≡ₚ seq 1 (3 - 1) /\
    Fin 6 = sum (zip_with (item (working triangle false)) ([0] ++ p) (p ++ [0])) /\
    forall q, q ≡ₚ seq 1 (3 - 1) ->
      (lex_lt q p ->
       num_leb (sum (zip_with (item (working triangle false)) ([0] ++ q) (q ++ [0])))
               (Fin 6) = false) /\
      (lex_lt p q ->
       num_ltb (sum (zip_with (item (working triangle false)) ([0] ++ q) (q ++ [0])))
               (Fin 6) = false).
Proof.
  apply (returned_tour_is_first_minimum [triangle] 0 triangle 3 false
           [0; 1; 2; 0] (Fin 6)).
  - lia.
  - apply (bool_decide_unpack _). vm_compute. exact I.
  - reflexivity.
  - reflexivity.
Defined.
